(** * A shallow embedding of whisper-dictation.py

    The recording machinery of [whisper-dictation.py]: the [RecordingManager]
    session state machine, the [Recorder] capture thread it drives, the tail
    of [Recorder._record_impl] (int16 conversion, transcription, typing) and
    the three key listeners ([GlobalKeyListener], [DoubleCommandKeyListener],
    [PushToTalkListener]). *)

From Stdlib Require Import Bool List ZArith QArith String Ascii Lia.
From Stdlib Require Import Strings.Byte.
Import ListNotations.

Open Scope list_scope.

(* ------------------------------------------------------------------ *)
(** ** Threads: [RecordingManager] and [Recorder] under interleaving *)

Module Threads.

(** Where a thread spawned by [Recorder.start] is in [_record_impl]. *)
Inductive stage :=
| Spawned                      (* created by [thread.start()], line 85 not yet run *)
| Capturing (frames : nat)     (* inside [while self.recording:] with [frames] chunks *)
| Transcribing                 (* loop left, stream closed, buffer built *)
| Finished                     (* [_record_impl] returned *)
| Crashed.                     (* an exception escaped [_record_impl] *)

(** The shared objects: [recording_manager] (its [recording] flag and its
    [timer]), [recorder.recording], and the pipeline threads spawned so far.
    [has_max_time] is [self.max_time is not None]. *)
Record world := mkWorld {
  mgr_recording : bool;
  mgr_timer : bool;             (* an armed, not cancelled [threading.Timer] *)
  has_max_time : bool;
  rec_recording : bool;
  threads : list stage
}.

Definition set_mgr (w : world) (r t : bool) : world :=
  mkWorld r t (has_max_time w) (rec_recording w) (threads w).

Definition set_rec (w : world) (b : bool) : world :=
  mkWorld (mgr_recording w) (mgr_timer w) (has_max_time w) b (threads w).

Definition set_threads (w : world) (ts : list stage) : world :=
  mkWorld (mgr_recording w) (mgr_timer w) (has_max_time w) (rec_recording w) ts.

Fixpoint set_nth {A} (n : nat) (x : A) (l : list A) : list A :=
  match l, n with
  | [], _ => []
  | _ :: t, O => x :: t
  | h :: t, S n' => h :: set_nth n' x t
  end.

Definition set_stage (w : world) (i : nat) (s : stage) : world :=
  set_threads w (set_nth i s (threads w)).

(** [Recorder.start]: spawn a thread running [_record_impl]; the flag
    [self.recording] is not touched here. *)
Definition recorder_start (w : world) : world :=
  set_threads w (threads w ++ [Spawned]).

(** [Recorder.stop]. *)
Definition recorder_stop (w : world) : world := set_rec w false.

(** [RecordingManager.start]. *)
Definition mgr_start (w : world) : world :=
  if negb (mgr_recording w) then
    let w1 := set_mgr w true (mgr_timer w) in
    let w2 := recorder_start w1 in
    if has_max_time w2 then set_mgr w2 true true else w2
  else w.

(** [RecordingManager.stop]: cancel the timer, clear the flag, stop the
    recorder. *)
Definition mgr_stop (w : world) : world :=
  if mgr_recording w then
    let w1 := set_mgr w (mgr_recording w) false in
    let w2 := set_mgr w1 false (mgr_timer w1) in
    recorder_stop w2
  else w.

(** [RecordingManager.toggle]. *)
Definition mgr_toggle (w : world) : world :=
  if mgr_recording w then mgr_stop w else mgr_start w.

(** The calls a key listener makes on the manager. *)
Inductive call := CStart | CStop | CToggle.

Definition mgr_call (w : world) (c : call) : world :=
  match c with
  | CStart => mgr_start w
  | CStop => mgr_stop w
  | CToggle => mgr_toggle w
  end.

(** One atomic step of the whole program: a manager call from the key
    listener thread, the timer thread firing, or one step of pipeline thread
    [i]. *)
Inductive event :=
| ECall (c : call)
| ETimerFire
| ERun (i : nat)           (* lines 85-92: [self.recording = True], stream opened *)
| EOpenFail (i : nat)      (* line 85 ran, then [p.open] raises *)
| ERead (i : nat)          (* loop test true, [stream.read] returns a chunk *)
| EReadFail (i : nat)      (* loop test true, [stream.read] raises *)
| ELoopExit (i : nat)      (* loop test false, stream closed (lines 99-104) *)
| EPipelineDone (i : nat)  (* [transcribe] returns; typing (errors caught) ends *)
| ETranscribeFail (i : nat). (* [transcribe] raises *)

Definition step (w : world) (e : event) : option world :=
  match e with
  | ECall c => Some (mgr_call w c)
  | ETimerFire =>
      if mgr_timer w then Some (mgr_stop (set_mgr w (mgr_recording w) false))
      else None
  | ERun i =>
      match nth_error (threads w) i with
      | Some Spawned => Some (set_stage (set_rec w true) i (Capturing 0))
      | _ => None
      end
  | EOpenFail i =>
      match nth_error (threads w) i with
      | Some Spawned => Some (set_stage (set_rec w true) i Crashed)
      | _ => None
      end
  | ERead i =>
      match nth_error (threads w) i with
      | Some (Capturing n) =>
          if rec_recording w then Some (set_stage w i (Capturing (S n))) else None
      | _ => None
      end
  | EReadFail i =>
      match nth_error (threads w) i with
      | Some (Capturing _) =>
          if rec_recording w then Some (set_stage w i Crashed) else None
      | _ => None
      end
  | ELoopExit i =>
      match nth_error (threads w) i with
      | Some (Capturing _) =>
          if rec_recording w then None else Some (set_stage w i Transcribing)
      | _ => None
      end
  | EPipelineDone i =>
      match nth_error (threads w) i with
      | Some Transcribing => Some (set_stage w i Finished)
      | _ => None
      end
  | ETranscribeFail i =>
      match nth_error (threads w) i with
      | Some Transcribing => Some (set_stage w i Crashed)
      | _ => None
      end
  end.

Fixpoint run (w : world) (es : list event) : option world :=
  match es with
  | [] => Some w
  | e :: es' => match step w e with Some w' => run w' es' | None => None end
  end.

(** The process start: [RecordingManager(recorder, language, args.max_time)]
    and [Recorder(transcriber)]; [-t] defaults to 30, so a timer is set. *)
Definition init : world := mkWorld false false true false [].

Definition is_capturing (s : stage) : bool :=
  match s with Capturing _ => true | _ => false end.

(** Number of threads inside the capture loop (each holds an input stream). *)
Definition capture_loops (w : world) : nat :=
  List.length (filter is_capturing (threads w)).

Definition pipeline_event (e : event) : bool :=
  match e with ECall _ | ETimerFire => false | _ => true end.

Definition error_event (e : event) : bool :=
  match e with
  | EOpenFail _ | EReadFail _ | ETranscribeFail _ => true
  | _ => false
  end.

End Threads.

(* ------------------------------------------------------------------ *)
(** ** The tail of [_record_impl]: transcription and typing *)

Module Pipeline.

(** Observable effects: a [print], one [self.pykeyboard.type(element)], one
    [time.sleep] (in microseconds). *)
Inductive effect :=
| Log (msg : string)
| Typed (c : ascii)
| Slept (us : Z).

(** How [_record_impl] ends: it returns, or an exception escapes it (and
    ends the thread). *)
Inductive exit := Returned | Raised.

(** The characters [str.lstrip()] removes (ASCII whitespace). *)
Definition is_space (c : ascii) : bool :=
  match nat_of_ascii c with
  | 9%nat | 10%nat | 11%nat | 12%nat | 13%nat | 32%nat => true
  | _ => false
  end.

Fixpoint lstrip (s : string) : string :=
  match s with
  | EmptyString => EmptyString
  | String c s' => if is_space c then lstrip s' else s
  end.

(** [SpeechTranscriber.transcribe]. [model_result] is
    [self.model.transcribe(audio_data, language=language)["text"]], [None]
    when that call raises; the exception is not caught here, so the result is
    [None] as well. *)
Definition transcribe (model_result : option string)
  : option (list effect * string) :=
  match model_result with
  | None => None
  | Some raw =>
      let t := lstrip raw in
      Some ([Log ("Transcription: " ++ t)], t)
  end.

(** The [for element in transcription:] loop. [type_fails k] is [Some msg]
    when the [k]-th call [self.pykeyboard.type(element)] raises with message
    [msg]. Returns the effects and the exception that left the loop. *)
Fixpoint type_chars (type_fails : nat -> option string) (k : nat) (s : string)
  : list effect * option string :=
  match s with
  | EmptyString => ([], None)
  | String c s' =>
      match type_fails k with
      | Some msg => ([], Some msg)
      | None =>
          let '(es, err) := type_chars type_fails (S k) s' in
          (Typed c :: Slept 2500 :: es, err)
      end
  end.

(** Lines 108-117: [if transcription:] then the [try] around the loop. *)
Definition emit (type_fails : nat -> option string) (transcription : string)
  : list effect :=
  match transcription with
  | EmptyString => [Log "No transcription text to type."]
  | _ =>
      let '(es, err) := type_chars type_fails 0 transcription in
      match err with
      | None => es ++ [Log "Typing complete."]
      | Some msg => es ++ [Log ("Error typing transcription: " ++ msg)]
      end
  end.

(** Lines 106-117 of [_record_impl]. *)
Definition record_tail (model_result : option string)
  (type_fails : nat -> option string) : list effect * exit :=
  match transcribe model_result with
  | None => ([], Raised)
  | Some (logs, t) => (logs ++ emit type_fails t, Returned)
  end.

End Pipeline.

(* ------------------------------------------------------------------ *)
(** ** The capture buffer: lines 103-104 of [_record_impl] *)

Module Audio.

Local Open Scope Z_scope.

(** One [np.int16] read from two bytes in native (little-endian) order. *)
Definition int16_le (lo hi : byte) : Z :=
  let u := Z.of_nat (Byte.to_nat lo) + 256 * Z.of_nat (Byte.to_nat hi) in
  if 32768 <=? u then u - 65536 else u.

(** [np.frombuffer(buf, dtype=np.int16)]; [None] when the buffer length is
    not a multiple of the element size (numpy raises [ValueError]). *)
Fixpoint frombuffer_int16 (bs : list byte) : option (list Z) :=
  match bs with
  | [] => Some []
  | [_] => None
  | lo :: hi :: rest =>
      match frombuffer_int16 rest with
      | Some xs => Some (int16_le lo hi :: xs)
      | None => None
      end
  end.

(** [x.astype(np.float32) / 32768.0]: an int16 has at most 16 significant
    bits and the divisor is a power of two, so the float32 result is the
    exact rational [x / 32768]. *)
Definition to_fp32 (x : Z) : Q := x # 32768.

(** [np.frombuffer(b''.join(frames), dtype=np.int16)] scaled. *)
Definition audio_data_fp32 (frames : list (list byte)) : option (list Q) :=
  match frombuffer_int16 (List.concat frames) with
  | Some xs => Some (map to_fp32 xs)
  | None => None
  end.

End Audio.

(* ------------------------------------------------------------------ *)
(** ** The key listeners *)

Module Listeners.

Import Threads.

(** A pynput key: a [keyboard.Key] member or a [keyboard.KeyCode(char=...)]. *)
Inductive key :=
| Special (name : string)
| KeyCode (c : ascii).

Definition key_eqb (a b : key) : bool :=
  match a, b with
  | Special x, Special y => String.eqb x y
  | KeyCode x, KeyCode y => Ascii.eqb x y
  | _, _ => false
  end.

Definition cmd_r : key := Special "cmd_r".
Definition cmd_l : key := Special "cmd_l".

(** Events delivered by [keyboard.Listener]; a press carries the value
    [time.time()] returns while it is handled. *)
Inductive kevent :=
| Press (k : key) (now : Q)
| Release (k : key).

(** [current_time - self.last_press_time < 0.5]. *)
Definition quick (now last : Q) : bool := negb (Qle_bool (1 # 2) (now - last)).

(** *** [GlobalKeyListener] (the chord) *)

Record gk := mkGK {
  key1 : key;
  key2 : key;
  key1_pressed : bool;
  key2_pressed : bool
}.

Definition gk_on_key_press (s : gk) (k : key) : gk * list call :=
  let s1 :=
    if key_eqb k (key1 s) then mkGK (key1 s) (key2 s) true (key2_pressed s)
    else if key_eqb k (key2 s) then mkGK (key1 s) (key2 s) (key1_pressed s) true
    else s in
  (s1, if key1_pressed s1 && key2_pressed s1 then [CToggle] else []).

Definition gk_on_key_release (s : gk) (k : key) : gk * list call :=
  if key_eqb k (key1 s) then (mkGK (key1 s) (key2 s) false (key2_pressed s), [])
  else if key_eqb k (key2 s) then (mkGK (key1 s) (key2 s) (key1_pressed s) false, [])
  else (s, []).

Definition gk_handle (s : gk) (ev : kevent) : gk * list call :=
  match ev with
  | Press k _ => gk_on_key_press s k
  | Release k => gk_on_key_release s k
  end.

(** The listener state after a sequence of events, and every call made. *)
Fixpoint gk_run (s : gk) (evs : list kevent) : gk * list call :=
  match evs with
  | [] => (s, [])
  | ev :: evs' =>
      let '(s1, cs1) := gk_handle s ev in
      let '(s2, cs2) := gk_run s1 evs' in
      (s2, cs1 ++ cs2)
  end.

(** [GlobalKeyListener.__init__] with parsed keys. *)
Definition gk_init (k1 k2 : key) : gk := mkGK k1 k2 false false.

Definition count_toggles (cs : list call) : nat :=
  List.length (filter (fun c => match c with CToggle => true | _ => false end) cs).

(** *** [DoubleCommandKeyListener] *)

(** [on_key_press] with [self.recording_manager.recording] = [recording] and
    [self.last_press_time] = [last]: the new [last_press_time] and the calls. *)
Definition dc_on_key_press (recording : bool) (last : Q) (k : key) (now : Q)
  : Q * list call :=
  if key_eqb k cmd_r then
    if negb recording && quick now last then (now, [CStart])
    else if recording then (now, [CStop])
    else (now, [])
  else (last, []).

(** [on_key_release] is [pass]. *)
Definition dc_handle (w : world) (last : Q) (ev : kevent) : world * Q :=
  match ev with
  | Press k now =>
      let '(last', cs) := dc_on_key_press (mgr_recording w) last k now in
      (fold_left mgr_call cs w, last')
  | Release _ => (w, last)
  end.

(** *** [PushToTalkListener] (the feedback tones are fire-and-forget threads
    and are left out) *)

Record ptt := mkPTT { active : bool; last_press_time : Q }.

Definition ptt_on_key_press (s : ptt) (k : key) (now : Q) : ptt * list call :=
  if key_eqb k cmd_l then
    if negb (active s) && quick now (last_press_time s)
    then (mkPTT true now, [CStart])
    else (mkPTT (active s) now, [])
  else (s, []).

Definition ptt_on_key_release (s : ptt) (k : key) : ptt * list call :=
  if key_eqb k cmd_l && active s then (mkPTT false (last_press_time s), [CStop])
  else (s, []).

Definition ptt_handle (s : ptt) (ev : kevent) : ptt * list call :=
  match ev with
  | Press k now => ptt_on_key_press s k now
  | Release k => ptt_on_key_release s k
  end.

Fixpoint ptt_run (s : ptt) (evs : list kevent) : ptt * list call :=
  match evs with
  | [] => (s, [])
  | ev :: evs' =>
      let '(s1, cs1) := ptt_handle s ev in
      let '(s2, cs2) := ptt_run s1 evs' in
      (s2, cs1 ++ cs2)
  end.

(** No press of the designated key comes within 0.5 s of the previous press
    of that key ([last] is the previous press time before the sequence). *)
Fixpoint slow_presses (last : Q) (evs : list kevent) : Prop :=
  match evs with
  | [] => True
  | Press k now :: evs' =>
      if key_eqb k cmd_l then quick now last = false /\ slow_presses now evs'
      else slow_presses last evs'
  | Release _ :: evs' => slow_presses last evs'
  end.

End Listeners.

(* ------------------------------------------------------------------ *)
(** ** Readings used by the statements *)

Module Views.

Import Threads Pipeline Listeners.

(** The Session rules as the spec words them: [start] is a no-op when
    active, [stop] is a no-op when idle, [toggle] dispatches on the flag. *)
Definition spec_start (active : bool) : bool := if active then active else true.
Definition spec_stop (active : bool) : bool := if active then false else active.
Definition spec_call (active : bool) (c : call) : bool :=
  match c with
  | CStart => spec_start active
  | CStop => spec_stop active
  | CToggle => if active then spec_stop active else spec_start active
  end.

(** The effects of typing the characters [cs] one at a time, each followed
    by [time.sleep(0.0025)]. *)
Definition typed (cs : list ascii) : list effect :=
  flat_map (fun c => [Typed c; Slept 2500]) cs.

(** Whether the chord listener currently holds key [k] as pressed. *)
Definition pressed (s : gk) (k : key) : bool :=
  if key_eqb k (key1 s) then key1_pressed s
  else if key_eqb k (key2 s) then key2_pressed s
  else false.

(** The observable part of a world: manager flag, recorder flag, number of
    live capture loops. *)
Definition observe (ow : option world) : option (bool * bool * nat) :=
  match ow with
  | Some w => Some (mgr_recording w, rec_recording w, capture_loops w)
  | None => None
  end.

End Views.

(* ------------------------------------------------------------------ *)
(** ** Command line, shutdown and other callers *)

Module Cli.

(** [str.split(sep)] with a one-character separator: always at least one
    piece, an empty piece on either side of each separator. *)
Fixpoint split_on (sep : ascii) (s : string) : list string :=
  match s with
  | EmptyString => [EmptyString]
  | String c s' =>
      let rest := split_on sep s' in
      if Ascii.eqb c sep then EmptyString :: rest
      else match rest with
           | h :: t => String c h :: t
           | [] => [String c EmptyString]
           end
  end.

(** Whether character [c] occurs in [s]. *)
Fixpoint has_char (c : ascii) (s : string) : bool :=
  match s with
  | EmptyString => false
  | String c' s' => Ascii.eqb c' c || has_char c s'
  end.

Section ParseKeys.

(** [getattr(keyboard.Key, name, keyboard.KeyCode(char=name))]: the pynput
    lookup of one key name. *)
Context {K : Type} (resolve : string -> K).

(** [GlobalKeyListener.parse_key_combination]: the unpacking
    [key1_name, key2_name = key_combination.split('+')] raises [ValueError]
    ([None]) unless there are exactly two pieces. *)
Definition parse_key_combination (key_combination : string) : option (K * K) :=
  match split_on "+" key_combination with
  | [key1_name; key2_name] => Some (resolve key1_name, resolve key2_name)
  | _ => None
  end.

End ParseKeys.

(** [str.endswith(suffix)]. *)
Definition ends_with (suffix s : string) : bool :=
  let n := String.length s in
  let m := String.length suffix in
  (m <=? n)%nat && String.eqb (substring (n - m) m s) suffix.

(** Lines 240-243 of [parse_args]: the [-l] value split on commas, then the
    [.en] model check; [None] is the [ValueError]. *)
Definition parse_language (model_name : string) (language : option string)
  : option (option (list string)) :=
  let langs := match language with
               | Some l => Some (split_on "," l)
               | None => None
               end in
  if ends_with ".en" model_name &&
     match langs with
     | Some ls => existsb (fun lang => negb (String.eqb lang "en")) ls
     | None => false
     end
  then None
  else Some langs.

(** Line 280: [args.language[0] if args.language else None]. *)
Definition session_language (langs : option (list string)) : option string :=
  match langs with
  | Some (l :: _) => Some l
  | _ => None
  end.

Import Threads.




(** How many of the calls [cs] find the session idle and start it. *)
Fixpoint count_starts (active : bool) (cs : list call) : nat :=
  match cs with
  | [] => O
  | c :: cs' =>
      let a' := Views.spec_call active c in
      ((if negb active && a' then 1 else 0) + count_starts a' cs')%nat
  end.

End Cli.

Module ListenerFacts.

Import Threads Listeners.

(** The held state of [k] after [evs], [b] before them. *)
Fixpoint last_held (k : key) (b : bool) (evs : list kevent) : bool :=
  match evs with
  | [] => b
  | Press k' _ :: evs' => last_held k (if key_eqb k' k then true else b) evs'
  | Release k' :: evs' => last_held k (if key_eqb k' k then false else b) evs'
  end.

(** Whether [cs] alternates [start()]/[stop()] from activity [a], and the
    activity it ends in. *)
Fixpoint alt_end (a : bool) (cs : list call) : option bool :=
  match cs with
  | [] => Some a
  | CStart :: cs' => if a then None else alt_end true cs'
  | CStop :: cs' => if a then alt_end false cs' else None
  | CToggle :: _ => None
  end.

End ListenerFacts.

Module AudioOut.

Local Open Scope Z_scope.

(** One byte holding [z mod 256]. *)
Definition byte_of_Z (z : Z) : byte :=
  match Byte.of_nat (Z.to_nat (z mod 256)) with
  | Some b => b
  | None => x00
  end.

(** [samples.astype(np.int16).tobytes()] (line 51 of [play_tone]): each
    sample as two bytes in native (little-endian) order. *)
Definition tobytes (xs : list Z) : list byte :=
  flat_map (fun x => [byte_of_Z x; byte_of_Z (x / 256)]) xs.

End AudioOut.

Module PipelineFacts.

Import Pipeline.


End PipelineFacts.

(* ================================================================== *)
(** * Properties *)

Module Props.

Import Threads Pipeline Audio Listeners Views.

(** *** Session manager and recorder threads *)

(** C1 (code_bug). [RecordingManager.start] sets its flag before spawning,
    but [Recorder.start] spawns the thread and the recorder's flag is set
    only inside it (line 85). A [start()] followed by [stop()] before the
    thread runs leaves the manager idle while the capture loop runs, and a
    further [start()] puts a second capture loop on the device. *)
Theorem recorder_flag_set_in_thread :
  observe (run init [ECall CStart; ECall CStop; ERun 0]) = Some (false, true, 1%nat) /\
  observe (run init [ECall CStart; ECall CStop; ERun 0; ECall CStart; ERun 1])
    = Some (true, true, 2%nat).
Proof. split; vm_compute; reflexivity. Qed.

Lemma pipeline_step_keeps_manager (w w' : world) (e : event) :
  pipeline_event e = true -> step w e = Some w' ->
  mgr_recording w' = mgr_recording w /\ mgr_timer w' = mgr_timer w.
Proof.
  intros Hp Hs.
  destruct e; simpl in Hp; try discriminate; simpl in Hs;
    destruct (nth_error (threads w) i) as [[]|]; try discriminate;
    try (destruct (rec_recording w)); try discriminate;
    inversion Hs; subst; simpl; auto.
Qed.

(** C2 (counterexample). An error in the pipeline does not leave the
    session idle: after [start()], a [stream.read] that raises in the
    capture thread kills it while the manager flag stays [true]. *)
Lemma capture_error_leaves_recording :
  ~ (forall es w e w', run init es = Some w -> error_event e = true ->
       step w e = Some w' -> mgr_recording w' = false).
Proof.
  intros H.
  assert (Hf : mgr_recording (mkWorld true true true true [Crashed]) = false).
  { apply (H [ECall CStart; ERun 0] (mkWorld true true true true [Capturing 0])
             (EReadFail 0)); vm_compute; reflexivity. }
  discriminate Hf.
Qed.

(** C2 (amended). Every step of a pipeline thread, every error exit among
    them (device open, read, transcription), leaves the session's active
    flag and its timer as they were: a capture error while Recording leaves
    the flag [true] until a later [stop()]. *)
Theorem pipeline_errors_keep_session_flag (w w' : world) (e : event) :
  pipeline_event e = true -> step w e = Some w' ->
  mgr_recording w' = mgr_recording w.
Proof. intros Hp Hs. exact (proj1 (pipeline_step_keeps_manager w w' e Hp Hs)). Qed.

Lemma pipeline_errors_keep_session_flag_witness :
  step (mkWorld true true true true [Capturing 0]) (EReadFail 0)
    = Some (mkWorld true true true true [Crashed]) /\
  mgr_recording (mkWorld true true true true [Crashed]) = true.
Proof.
  split; [reflexivity|].
  apply (pipeline_errors_keep_session_flag
           (mkWorld true true true true [Capturing 0]) _ (EReadFail 0));
    reflexivity.
Defined.

Lemma mgr_call_flag (w : world) (c : call) :
  mgr_recording (mgr_call w c) = spec_call (mgr_recording w) c.
Proof.
  destruct c; cbn [mgr_call spec_call]; unfold mgr_toggle;
    unfold mgr_start, mgr_stop, spec_start, spec_stop;
    destruct (mgr_recording w) eqn:E; simpl; rewrite ?E; simpl;
    try destruct (has_max_time w); reflexivity.
Qed.

Lemma fold_mgr_call_flag (cs : list call) (w : world) :
  mgr_recording (fold_left mgr_call cs w) = fold_left spec_call cs (mgr_recording w).
Proof.
  revert w; induction cs as [|c cs IH]; intros w; simpl; [reflexivity|].
  rewrite IH, mgr_call_flag; reflexivity.
Qed.

(** C3. After each call of any finite sequence of [start()]/[stop()]/
    [toggle()] calls, the manager's flag is the fold of the prefix so far
    under the idempotent Session rules. *)
Theorem session_flag_is_fold (w : world) (cs : list call) (n : nat) :
  mgr_recording (fold_left mgr_call (firstn n cs) w)
  = fold_left spec_call (firstn n cs) (mgr_recording w).
Proof. apply fold_mgr_call_flag. Qed.

(** *** Transcription and typing *)

(** C4 (code_bug). When [self.model.transcribe] raises, nothing in
    [SpeechTranscriber.transcribe] or [_record_impl] catches it: the
    exception leaves [_record_impl] (ending the pipeline thread) instead of
    being logged and handled as an empty transcription. *)
Theorem transcription_error_escapes (type_fails : nat -> option string) :
  record_tail None type_fails = ([], Raised).
Proof. reflexivity. Qed.

Lemma type_chars_all (f : nat -> option string) (s : string) : forall k0,
  (forall j, (j < String.length s)%nat -> f (k0 + j)%nat = None) ->
  type_chars f k0 s = (typed (list_ascii_of_string s), None).
Proof.
  induction s as [|c s IH]; intros k0 H; simpl; [reflexivity|].
  assert (Hk : f k0 = None).
  { rewrite <- (Nat.add_0_r k0). apply H. simpl. lia. }
  rewrite Hk, (IH (S k0)); [reflexivity|].
  intros j Hj. replace (S k0 + j)%nat with (k0 + S j)%nat by lia.
  apply H. simpl. lia.
Qed.

Lemma type_chars_fail (f : nat -> option string) (msg : string) (s : string) :
  forall k0 k, (k < String.length s)%nat ->
  (forall j, (j < k)%nat -> f (k0 + j)%nat = None) ->
  f (k0 + k)%nat = Some msg ->
  type_chars f k0 s = (typed (firstn k (list_ascii_of_string s)), Some msg).
Proof.
  induction s as [|c s IH]; intros k0 k Hk Hpre Hf; simpl in Hk; [lia|].
  destruct k as [|k].
  - rewrite Nat.add_0_r in Hf. simpl. rewrite Hf. reflexivity.
  - assert (H0 : f k0 = None).
    { rewrite <- (Nat.add_0_r k0). apply Hpre. lia. }
    simpl. rewrite H0, (IH (S k0) k); [reflexivity | lia | |].
    + intros j Hj. replace (S k0 + j)%nat with (k0 + S j)%nat by lia.
      apply Hpre. lia.
    + replace (S k0 + k)%nat with (k0 + S k)%nat by lia. exact Hf.
Qed.

(** C9. Typing does nothing for an empty transcription; otherwise the
    characters are typed one at a time in order, each followed by a
    2500 us ([0.0025] s) sleep; if the [k]-th [type] call raises, the error
    is logged and the [k] characters already typed stay (nothing is undone). *)
Theorem emission_in_order (f : nat -> option string) :
  emit f EmptyString = [Log "No transcription text to type."] /\
  forall (text : string) (k : nat),
    text <> EmptyString ->
    (forall j, (j < k)%nat -> f j = None) ->
    (k = String.length text ->
       emit f text = typed (list_ascii_of_string text) ++ [Log "Typing complete."]) /\
    (forall msg, (k < String.length text)%nat -> f k = Some msg ->
       emit f text = typed (firstn k (list_ascii_of_string text))
                     ++ [Log ("Error typing transcription: " ++ msg)]).
Proof.
  split; [reflexivity|].
  intros text k Hne Hpre. split.
  - intros ->. unfold emit.
    rewrite (type_chars_all f text 0); [destruct text; [contradiction|reflexivity]|].
    intros j Hj. apply Hpre. simpl. exact Hj.
  - intros msg Hk Hf. unfold emit.
    rewrite (type_chars_fail f msg text 0 k); auto.
    destruct text; [contradiction|reflexivity].
Qed.

Definition fail_second (k : nat) : option string :=
  if Nat.eqb k 1 then Some "busy"%string else None.

Lemma emission_in_order_witness :
  emit fail_second "hi"%string
  = [Typed "h"%char; Slept 2500; Log "Error typing transcription: busy"].
Proof.
  rewrite (proj2 (proj2 (emission_in_order fail_second) "hi"%string 1%nat
                   ltac:(discriminate)
                   ltac:(intros j Hj; destruct j; [reflexivity | lia]))
                 "busy"%string ltac:(simpl; lia) eq_refl).
  reflexivity.
Defined.

(** *** The capture buffer *)

Lemma int16_le_range (lo hi : byte) : (-32768 <= int16_le lo hi <= 32767)%Z.
Proof.
  unfold int16_le.
  pose proof (Byte.to_nat_bounded lo) as Hlo.
  pose proof (Byte.to_nat_bounded hi) as Hhi.
  destruct (32768 <=? _)%Z eqn:E;
    [apply Z.leb_le in E | apply Z.leb_gt in E]; lia.
Qed.

Lemma to_fp32_range (x : Z) :
  (-32768 <= x <= 32767)%Z -> (-1 <= to_fp32 x <= 1)%Q.
Proof. intros [H1 H2]. unfold to_fp32, Qle; simpl; split; lia. Qed.

Lemma frombuffer_even (n : nat) : forall c,
  List.length c = (2 * n)%nat ->
  exists xs, frombuffer_int16 c = Some xs /\ List.length xs = n.
Proof.
  induction n as [|n IH]; intros c Hc.
  - destruct c; [exists []; auto | simpl in Hc; lia].
  - destruct c as [|lo [|hi c]]; simpl in Hc; try lia.
    destruct (IH c) as [xs [H1 H2]]; [lia|].
    exists (int16_le lo hi :: xs). simpl. rewrite H1. auto.
Qed.

Lemma frombuffer_app (n : nat) : forall a b xa xb,
  List.length a = (2 * n)%nat ->
  frombuffer_int16 a = Some xa -> frombuffer_int16 b = Some xb ->
  frombuffer_int16 (a ++ b) = Some (xa ++ xb).
Proof.
  induction n as [|n IH]; intros a b xa xb Ha Hxa Hxb.
  - destruct a; [simpl in *; inversion Hxa; subst; exact Hxb | simpl in Ha; lia].
  - destruct a as [|lo [|hi a]]; simpl in Ha; try lia.
    simpl in Hxa. destruct (frombuffer_int16 a) as [l|] eqn:E; [|discriminate].
    inversion Hxa; subst. simpl.
    rewrite (IH a b l xb); auto. lia.
Qed.

Lemma frombuffer_range (n : nat) : forall c xs,
  (List.length c <= n)%nat -> frombuffer_int16 c = Some xs ->
  Forall (fun x => (-32768 <= x <= 32767)%Z) xs.
Proof.
  induction n as [|n IH]; intros c xs Hn Hc.
  - destruct c; [simpl in Hc; inversion Hc; constructor | simpl in Hn; lia].
  - destruct c as [|lo [|hi c]]; simpl in Hc.
    + inversion Hc; constructor.
    + discriminate.
    + destruct (frombuffer_int16 c) as [l|] eqn:E; [|discriminate].
      inversion Hc; subst. constructor; [apply int16_le_range|].
      apply (IH c); [simpl in Hn; lia | exact E].
Qed.

Lemma frames_decode (frames : list (list byte)) :
  Forall (fun c => Nat.even (List.length c) = true) frames ->
  exists xss : list (list Z),
    Forall2 (fun c xs => frombuffer_int16 c = Some xs) frames xss /\
    frombuffer_int16 (List.concat frames) = Some (List.concat xss) /\
    List.length (List.concat xss)
      = list_sum (map (fun c => Nat.div2 (List.length c)) frames).
Proof.
  induction frames as [|c frames IH]; intros Hev.
  - exists []. simpl. auto.
  - inversion Hev as [|? ? Hc Hrest]; subst.
    destruct (IH Hrest) as [xss [H1 [H2 H3]]].
    apply Nat.even_spec in Hc. destruct Hc as [m Hm].
    destruct (frombuffer_even m c Hm) as [xs [Hxs Hlen]].
    exists (xs :: xss). simpl. repeat split.
    + constructor; auto.
    + apply (frombuffer_app m); auto.
    + rewrite length_app, H3, Hlen, Hm, Nat.div2_double. reflexivity.
Qed.

(** C8. Zero chunks give an empty sample array; for chunks holding whole
    int16 samples (an even number of bytes, as [stream.read] returns), the
    samples are each chunk's int16 values, concatenated in capture order and
    scaled by 1/32768; their number is the total int16 sample count and each
    lies in [-1, 1]. *)
Theorem capture_buffer_conversion :
  audio_data_fp32 [] = Some [] /\
  forall frames : list (list byte),
    Forall (fun c => Nat.even (List.length c) = true) frames ->
    exists xss : list (list Z),
      Forall2 (fun c xs => frombuffer_int16 c = Some xs) frames xss /\
      audio_data_fp32 frames = Some (map to_fp32 (List.concat xss)) /\
      List.length (map to_fp32 (List.concat xss))
        = list_sum (map (fun c => Nat.div2 (List.length c)) frames) /\
      Forall (fun q => (-1 <= q <= 1)%Q) (map to_fp32 (List.concat xss)).
Proof.
  split; [reflexivity|].
  intros frames Hev.
  destruct (frames_decode frames Hev) as [xss [H1 [H2 H3]]].
  exists xss. repeat split; auto.
  - unfold audio_data_fp32. rewrite H2. reflexivity.
  - rewrite length_map. exact H3.
  - apply Forall_map.
    apply (Forall_impl _ to_fp32_range).
    apply (frombuffer_range (List.length (List.concat frames)) _ _ (le_n _) H2).
Qed.

Lemma capture_buffer_conversion_witness :
  audio_data_fp32 [[x00; x80]; [xff; x7f; x01; x00]]
  = Some (map to_fp32 (List.concat [[(-32768)%Z]; [32767%Z; 1%Z]])).
Proof.
  destruct (proj2 capture_buffer_conversion [[x00; x80]; [xff; x7f; x01; x00]]
              ltac:(repeat constructor)) as [xss [H1 [H2 _]]].
  rewrite H2.
  inversion H1 as [|? ? ? ? Ha Hrest]; subst.
  inversion Hrest as [|? ? ? ? Hb Hnil]; subst.
  inversion Hnil; subst.
  vm_compute in Ha, Hb. inversion Ha; inversion Hb; subst.
  reflexivity.
Defined.

(** *** Key listeners *)

Arguments key_eqb : simpl never.

Lemma key_eqb_refl (k : key) : key_eqb k k = true.
Proof. destruct k; unfold key_eqb; [apply String.eqb_refl | apply Ascii.eqb_refl]. Qed.

Lemma key_eqb_sym (a b : key) : key_eqb a b = key_eqb b a.
Proof.
  destruct a, b; unfold key_eqb; auto; [apply String.eqb_sym | apply Ascii.eqb_sym].
Qed.

Lemma quick_spec (now last : Q) : quick now last = true <-> (now - last < 1 # 2)%Q.
Proof.
  unfold quick. rewrite negb_true_iff. split; intros H.
  - apply Qnot_le_lt. intros C. apply Qle_bool_iff in C. congruence.
  - destruct (Qle_bool (1 # 2) (now - last)) eqn:E; [|reflexivity].
    apply Qle_bool_iff in E. exfalso. exact (Qlt_not_le _ _ H E).
Qed.

Lemma quick_false (now last : Q) : quick now last = false <-> ~ (now - last < 1 # 2)%Q.
Proof.
  rewrite <- quick_spec. destruct (quick now last); split; congruence.
Qed.

(** C5. A press of [cmd_r] always records its time; while idle it calls
    [start()] exactly when it comes under 0.5 s after the previous press
    (and then the session is recording); while recording it calls [stop()]
    whatever the timing (and the session is idle). *)
Theorem double_tap_press (w : world) (last now : Q) :
  fst (dc_on_key_press (mgr_recording w) last cmd_r now) = now /\
  (mgr_recording w = false ->
     (snd (dc_on_key_press (mgr_recording w) last cmd_r now) = [CStart]
        <-> (now - last < 1 # 2)%Q) /\
     (~ (now - last < 1 # 2)%Q ->
        snd (dc_on_key_press (mgr_recording w) last cmd_r now) = []) /\
     (mgr_recording (fst (dc_handle w last (Press cmd_r now))) = true
        <-> (now - last < 1 # 2)%Q)) /\
  (mgr_recording w = true ->
     snd (dc_on_key_press (mgr_recording w) last cmd_r now) = [CStop] /\
     mgr_recording (fst (dc_handle w last (Press cmd_r now))) = false).
Proof.
  pose proof (quick_spec now last) as Hq.
  unfold dc_handle, dc_on_key_press. rewrite key_eqb_refl.
  revert Hq. destruct (mgr_recording w) eqn:E; destruct (quick now last); intros Hq;
    cbn [negb andb fst snd]; rewrite ?fold_mgr_call_flag, ?E;
    cbn [fold_left spec_call spec_start spec_stop].
  - repeat split; intros; try discriminate; reflexivity.
  - repeat split; intros; try discriminate; reflexivity.
  - repeat split; intros; try reflexivity; try discriminate; try (apply Hq; reflexivity).
    exfalso. match goal with Hn : ~ _ |- _ => apply Hn, Hq, eq_refl end.
  - repeat split; intros; try reflexivity; try discriminate;
      match goal with Hl : (_ < _)%Q |- _ => discriminate (proj2 Hq Hl) end.
Qed.

Lemma double_tap_press_witness :
  mgr_recording (fst (dc_handle init 0 (Press cmd_r (1 # 4)))) = true.
Proof.
  apply (proj2 (proj2 (proj2 (proj1 (proj2 (double_tap_press init 0 (1 # 4)))
                                 eq_refl)))).
  vm_compute. reflexivity.
Defined.

Lemma ptt_run_slow (evs : list kevent) : forall s,
  slow_presses (last_press_time s) evs -> ~ In CStart (snd (ptt_run s evs)).
Proof.
  induction evs as [|ev evs IH]; intros s Hs; [simpl; tauto|].
  destruct ev as [k now | k]; cbn [ptt_run ptt_handle].
  - cbn [slow_presses] in Hs. unfold ptt_on_key_press.
    destruct (key_eqb k cmd_l).
    + destruct Hs as [Hq Hs]. rewrite Hq, andb_false_r.
      cbn [fst snd]. destruct (ptt_run (mkPTT (active s) now) evs) as [s2 cs2] eqn:E.
      simpl. intros Hin. apply (IH (mkPTT (active s) now) Hs). rewrite E. exact Hin.
    + destruct (ptt_run s evs) as [s2 cs2] eqn:E.
      simpl. intros Hin. apply (IH s Hs). rewrite E. exact Hin.
  - cbn [slow_presses] in Hs. unfold ptt_on_key_release.
    destruct (key_eqb k cmd_l && active s).
    + destruct (ptt_run (mkPTT false (last_press_time s)) evs) as [s2 cs2] eqn:E.
      simpl. intros [Hc|Hin]; [discriminate|].
      apply (IH (mkPTT false (last_press_time s)) Hs). rewrite E. exact Hin.
    + destruct (ptt_run s evs) as [s2 cs2] eqn:E.
      simpl. intros Hin. apply (IH s Hs). rewrite E. exact Hin.
Qed.

(** C6. A [cmd_l] press records its time; it makes the listener active and
    calls [start()] exactly when the listener is inactive and the press is
    under 0.5 s after the previous one, and otherwise calls nothing; a
    release while active clears [active] and calls [stop()]; without a
    quick second press no event sequence ever calls [start()]; and press,
    release, press again within 0.5 s leaves it active having called
    [start()]. *)
Theorem push_to_talk (s : ptt) (now : Q) :
  last_press_time (fst (ptt_on_key_press s cmd_l now)) = now /\
  (active s = false /\ (now - last_press_time s < 1 # 2)%Q ->
     ptt_on_key_press s cmd_l now = (mkPTT true now, [CStart])) /\
  (~ (active s = false /\ (now - last_press_time s < 1 # 2)%Q) ->
     ptt_on_key_press s cmd_l now = (mkPTT (active s) now, [])) /\
  (active s = true ->
     ptt_on_key_release s cmd_l = (mkPTT false (last_press_time s), [CStop])) /\
  (forall evs, slow_presses (last_press_time s) evs ->
     ~ In CStart (snd (ptt_run s evs))) /\
  (forall t1 t2, active s = false -> (t2 - t1 < 1 # 2)%Q ->
     active (fst (ptt_run s [Press cmd_l t1; Release cmd_l; Press cmd_l t2])) = true /\
     In CStart (snd (ptt_run s [Press cmd_l t1; Release cmd_l; Press cmd_l t2]))).
Proof.
  unfold ptt_on_key_press, ptt_on_key_release. rewrite key_eqb_refl.
  split; [destruct (negb (active s) && quick now (last_press_time s)); reflexivity|].
  split.
  { intros [Ha Hq]. rewrite Ha. apply quick_spec in Hq. rewrite Hq. reflexivity. }
  split.
  { intros Hn. destruct (active s) eqn:Ha; [reflexivity|].
    destruct (quick now (last_press_time s)) eqn:Hq; [|reflexivity].
    exfalso. apply Hn. split; [reflexivity|]. apply quick_spec. exact Hq. }
  split.
  { intros Ha. rewrite Ha. reflexivity. }
  split; [intros evs; apply ptt_run_slow|].
  intros t1 t2 Ha Hq. apply quick_spec in Hq.
  destruct s as [a l]. cbn [active last_press_time] in *. subst a.
  cbn [ptt_run ptt_handle]. unfold ptt_on_key_press, ptt_on_key_release.
  rewrite !key_eqb_refl. cbn [negb andb active last_press_time].
  destruct (quick t1 l); cbn [negb andb active last_press_time fst snd];
    rewrite ?Hq; cbn; auto.
Qed.

Lemma push_to_talk_witness :
  ptt_on_key_press (mkPTT false 0) cmd_l (1 # 4) = (mkPTT true (1 # 4), [CStart]).
Proof.
  apply (proj1 (proj2 (push_to_talk (mkPTT false 0) (1 # 4)))).
  split; [reflexivity | vm_compute; reflexivity].
Defined.

(** C7. For two distinct designated keys [A] and [B] (in either order):
    pressing [A] while [B] is not held makes no call; pressing [A] then [B]
    calls [toggle()] exactly once; with [A] held, releasing [B] and pressing
    it again calls [toggle()] once more, [A] staying held. *)
Theorem chord_toggles (s : gk) (A B : key) (tA tB tB' : Q) :
  key_eqb (key1 s) (key2 s) = false ->
  (A = key1 s /\ B = key2 s \/ A = key2 s /\ B = key1 s) ->
  (pressed s B = false -> snd (gk_on_key_press s A) = []) /\
  (pressed s B = false ->
     count_toggles (snd (gk_run s [Press A tA; Press B tB])) = 1%nat) /\
  (pressed s A = true ->
     count_toggles (snd (gk_run s [Release B; Press B tB'])) = 1%nat /\
     pressed (fst (gk_run s [Release B; Press B tB'])) A = true).
Proof.
  intros Hne Hab.
  assert (Hne' : key_eqb (key2 s) (key1 s) = false) by (rewrite key_eqb_sym; exact Hne).
  destruct s as [k1 k2 p1 p2]; cbn [key1 key2] in *.
  destruct Hab as [[-> ->]|[-> ->]];
    cbn [gk_run gk_handle]; unfold pressed, gk_on_key_press, gk_on_key_release;
    cbn [key1 key2 key1_pressed key2_pressed];
    rewrite ?key_eqb_refl, ?Hne, ?Hne'; cbn [key1 key2 key1_pressed key2_pressed];
    rewrite ?key_eqb_refl, ?Hne, ?Hne';
    destruct p1, p2; cbn; rewrite ?key_eqb_refl, ?Hne, ?Hne'; cbn;
    rewrite ?key_eqb_refl, ?Hne, ?Hne';
    repeat split; intros; try discriminate; reflexivity.
Qed.

Lemma chord_toggles_witness :
  count_toggles (snd (gk_run (gk_init (Special "ctrl") (Special "alt"))
                     [Press (Special "ctrl") 0; Press (Special "alt") 0])) = 1%nat.
Proof.
  apply (proj1 (proj2 (chord_toggles (gk_init (Special "ctrl") (Special "alt"))
                        (Special "ctrl") (Special "alt") 0 0 0
                        eq_refl (or_introl (conj eq_refl eq_refl))))).
  reflexivity.
Defined.

(** C10. Whenever both designated keys are held, a press of any other key
    also calls [toggle()] (the listener state is unchanged). *)
Theorem chord_third_key_toggles (s : gk) (k : key) :
  key1_pressed s = true -> key2_pressed s = true ->
  key_eqb k (key1 s) = false -> key_eqb k (key2 s) = false ->
  gk_on_key_press s k = (s, [CToggle]).
Proof. intros H1 H2 H3 H4. unfold gk_on_key_press. rewrite H3, H4, H1, H2. reflexivity. Qed.

Lemma chord_third_key_toggles_witness :
  gk_on_key_press (mkGK (Special "ctrl") (Special "alt") true true) (KeyCode "a")
  = (mkGK (Special "ctrl") (Special "alt") true true, [CToggle]).
Proof. apply chord_third_key_toggles; reflexivity. Defined.

End Props.

(* ================================================================== *)
(** * Further properties of the code *)

Module Extra.

Import Threads Pipeline Audio Listeners Views Cli ListenerFacts AudioOut PipelineFacts Props.

(** *** [str.split] and the command line *)

Lemma split_on_nonempty (sep : ascii) (s : string) : split_on sep s <> [].
Proof.
  destruct s as [|c s]; simpl; [discriminate|].
  destruct (Ascii.eqb c sep); [discriminate|].
  destruct (split_on sep s); discriminate.
Qed.

Lemma concat_cons_string (sep : string) (c : ascii) (h : string) (t : list string) :
  String.concat sep (String c h :: t) = String c (String.concat sep (h :: t)).
Proof. destruct t; reflexivity. Qed.

(** Joining the pieces of [s.split(sep)] with [sep] gives [s] back, and no
    piece contains [sep]. *)
Theorem split_on_join (sep : ascii) (s : string) :
  String.concat (String sep EmptyString) (split_on sep s) = s /\
  Forall (fun p => has_char sep p = false) (split_on sep s).
Proof.
  induction s as [|c s [IHj IHf]].
  { split; [reflexivity | repeat constructor]. }
  pose proof (split_on_nonempty sep s) as Hne.
  cbn [split_on].
  remember (split_on sep s) as ps eqn:Eps.
  destruct ps as [|h t]; [contradiction|].
  destruct (Ascii.eqb c sep) eqn:E.
  - apply Ascii.eqb_eq in E; subst c.
    split; [|constructor; [reflexivity|exact IHf]].
    change (String sep (String.concat (String sep EmptyString) (h :: t)) = String sep s).
    rewrite IHj. reflexivity.
  - apply Forall_cons_iff in IHf as [Hh Ht].
    split.
    + rewrite concat_cons_string, IHj. reflexivity.
    + constructor; [simpl; rewrite E, Hh; reflexivity | exact Ht].
Qed.

Lemma split_on_app_sep (sep : ascii) (a r : string) :
  has_char sep a = false ->
  split_on sep (a ++ String sep r) = a :: split_on sep r.
Proof.
  induction a as [|c a IH]; intros Ha; simpl.
  - rewrite Ascii.eqb_refl. reflexivity.
  - simpl in Ha. apply orb_false_iff in Ha as [Hc Ha].
    rewrite Hc, IH by exact Ha. reflexivity.
Qed.

Lemma split_on_no_sep (sep : ascii) (b : string) :
  has_char sep b = false -> split_on sep b = [b].
Proof.
  induction b as [|c b IH]; intros Hb; simpl; [reflexivity|].
  simpl in Hb. apply orb_false_iff in Hb as [Hc Hb].
  rewrite Hc, IH by exact Hb. reflexivity.
Qed.

(** [parse_key_combination] succeeds exactly on strings [a+b] with a single
    ['+'], and resolves the two sides; any other number of ['+'] is a
    [ValueError]. *)
Theorem parse_key_combination_spec {K : Type} (resolve : string -> K)
  (key_combination : string) (p : K * K) :
  parse_key_combination resolve key_combination = Some p <->
  exists a b, key_combination = (a ++ "+" ++ b)%string /\
              has_char "+" a = false /\ has_char "+" b = false /\
              p = (resolve a, resolve b).
Proof.
  unfold parse_key_combination. split.
  - destruct (split_on_join "+" key_combination) as [Hj Hf].
    destruct (split_on "+" key_combination) as [|a [|b [|x t]]] eqn:E;
      try discriminate.
    intros Hp. inversion Hp; subst.
    inversion Hf as [|? ? Ha Hr]; inversion Hr as [|? ? Hb _]; subst.
    exists a, b. repeat split; auto.
  - intros (a & b & -> & Ha & Hb & ->).
    simpl. rewrite (split_on_app_sep "+" a b Ha), (split_on_no_sep "+" b Hb).
    reflexivity.
Qed.

Lemma parse_key_combination_spec_witness :
  parse_key_combination (fun n => n) "ctrl+alt"%string = Some ("ctrl", "alt")%string.
Proof.
  apply (proj2 (parse_key_combination_spec (fun n => n) "ctrl+alt"%string ("ctrl", "alt")%string)).
  exists "ctrl"%string, "alt"%string. repeat split.
Defined.


Lemma append_empty_r (s : string) : (s ++ EmptyString)%string = s.
Proof. induction s as [|c s IH]; simpl; [reflexivity|]. rewrite IH. reflexivity. Qed.

(** The session uses the first comma-separated code of [-l]: a prefix of the
    argument that contains no comma and is followed by nothing or a comma. *)
Theorem session_language_first_code (model_name l : string) (langs : option (list string)) :
  parse_language model_name (Some l) = Some langs ->
  exists first rest,
    session_language langs = Some first /\ l = (first ++ rest)%string /\
    has_char "," first = false /\
    (rest = EmptyString \/ exists r, rest = String "," r).
Proof.
  unfold parse_language. intros H.
  destruct (_ && _); [discriminate|]. inversion H; subst langs. clear H.
  destruct (split_on_join "," l) as [Hj Hf].
  destruct (split_on "," l) as [|h t] eqn:E; [destruct (split_on_nonempty "," l E)|].
  apply Forall_cons_iff in Hf as [Hh _].
  destruct t as [|h' t].
  - exists h, EmptyString. simpl in Hj.
    split; [reflexivity|]. split; [rewrite append_empty_r; symmetry; exact Hj|].
    split; [exact Hh | left; reflexivity].
  - exists h, (String "," (String.concat "," (h' :: t))).
    split; [reflexivity|]. split; [rewrite <- Hj; reflexivity|].
    split; [exact Hh | right; eexists; reflexivity].
Qed.

Lemma session_language_first_code_witness :
  exists first rest,
    session_language (Some ["en"; "fr"]%string) = Some first /\
    "en,fr"%string = (first ++ rest)%string /\
    has_char "," first = false /\
    (rest = EmptyString \/ exists r, rest = String "," r).
Proof.
  exact (session_language_first_code "base" "en,fr" (Some ["en"; "fr"]%string) eq_refl).
Defined.

(** *** Transcription text and typing *)









(** *** The int16 byte format *)

Lemma byte_of_Z_to_nat (z : Z) : Z.of_nat (Byte.to_nat (byte_of_Z z)) = (z mod 256)%Z.
Proof.
  unfold byte_of_Z. pose proof (Z.mod_pos_bound z 256 ltac:(lia)).
  destruct (Byte.of_nat (Z.to_nat (z mod 256))) as [b|] eqn:E.
  - apply Byte.to_of_nat in E. rewrite E. lia.
  - apply Byte.of_nat_None_iff in E. lia.
Qed.

Lemma int16_le_tobytes (x : Z) :
  (-32768 <= x <= 32767)%Z -> int16_le (byte_of_Z x) (byte_of_Z (x / 256)) = x.
Proof.
  intros Hx. unfold int16_le. rewrite !byte_of_Z_to_nat.
  pose proof (Z.div_mod x 256 ltac:(lia)).
  pose proof (Z.mod_pos_bound x 256 ltac:(lia)).
  pose proof (Z.div_mod (x / 256) 256 ltac:(lia)).
  pose proof (Z.mod_pos_bound (x / 256) 256 ltac:(lia)).
  destruct (32768 <=? _)%Z eqn:E; [apply Z.leb_le in E | apply Z.leb_gt in E]; lia.
Qed.

(** The bytes [play_tone] writes for int16 samples ([tobytes]) are read back
    by the capture conversion ([np.frombuffer(..., dtype=np.int16)]) as the
    same samples: two bytes per sample, no sample changed. *)
Theorem tobytes_frombuffer (xs : list Z) :
  Forall (fun x => (-32768 <= x <= 32767)%Z) xs ->
  frombuffer_int16 (tobytes xs) = Some xs /\
  List.length (tobytes xs) = (2 * List.length xs)%nat.
Proof.
  induction xs as [|x xs IH]; intros H; [split; reflexivity|].
  apply Forall_cons_iff in H as [Hx Hxs]. destruct (IH Hxs) as [H1 H2].
  cbn [tobytes flat_map app]. fold (tobytes xs).
  split.
  - cbn [frombuffer_int16]. rewrite H1, int16_le_tobytes by exact Hx. reflexivity.
  - cbn [List.length]. rewrite H2. lia.
Qed.

Lemma tobytes_frombuffer_witness :
  frombuffer_int16 (tobytes [(-32768)%Z; 0%Z; 32767%Z]) = Some [(-32768)%Z; 0%Z; 32767%Z].
Proof.
  apply (proj1 (tobytes_frombuffer [(-32768)%Z; 0%Z; 32767%Z]
                  ltac:(repeat constructor; lia))).
Defined.

(** *** Manager, timer and threads *)








Lemma mgr_call_threads (w : world) (c : call) :
  threads (mgr_call w c)
  = threads w ++ (if negb (mgr_recording w) && spec_call (mgr_recording w) c
                  then [Spawned] else []).
Proof.
  destruct w as [r t h rr ts]; destruct c, r, h; cbn; rewrite ?app_nil_r; reflexivity.
Qed.

(** Any sequence of [start()]/[stop()]/[toggle()] calls leaves the threads
    already spawned untouched and spawns one new pipeline thread for each call
    that finds the session idle and starts it, and no other. *)
Theorem spawned_threads_count (cs : list call) : forall w,
  exists fresh,
    threads (fold_left mgr_call cs w) = threads w ++ fresh /\
    Forall (fun st => st = Spawned) fresh /\
    List.length fresh = count_starts (mgr_recording w) cs.
Proof.
  induction cs as [|c cs IH]; intros w; cbn [fold_left count_starts].
  - exists []. rewrite app_nil_r. auto.
  - destruct (IH (mgr_call w c)) as [fresh [H1 [H2 H3]]].
    exists ((if negb (mgr_recording w) && spec_call (mgr_recording w) c
             then [Spawned] else []) ++ fresh).
    rewrite H1, mgr_call_threads, app_assoc. split; [reflexivity|]. split.
    + apply Forall_app. split; [|exact H2].
      destruct (_ && _); repeat constructor.
    + rewrite length_app, H3, mgr_call_flag.
      destruct (_ && _); reflexivity.
Qed.





(** *** Key listeners over event sequences *)

Lemma key_eqb_true (a b : key) : key_eqb a b = true -> a = b.
Proof.
  destruct a, b; unfold key_eqb; try discriminate; intros H;
    [apply String.eqb_eq in H | apply Ascii.eqb_eq in H]; subst; reflexivity.
Qed.

Lemma gk_handle_flags (s : gk) (ev : kevent) :
  key1 (fst (gk_handle s ev)) = key1 s /\ key2 (fst (gk_handle s ev)) = key2 s /\
  key1_pressed (fst (gk_handle s ev)) = last_held (key1 s) (key1_pressed s) [ev] /\
  (key_eqb (key1 s) (key2 s) = false ->
   key2_pressed (fst (gk_handle s ev)) = last_held (key2 s) (key2_pressed s) [ev]).
Proof.
  destruct s as [k1 k2 p1 p2].
  destruct ev as [k t | k];
    unfold gk_handle, gk_on_key_press, gk_on_key_release, last_held; cbn;
    destruct (key_eqb k k1) eqn:E1; destruct (key_eqb k k2) eqn:E2; cbn;
    rewrite ?E1, ?E2; cbn;
    (split; [reflexivity|]); (split; [reflexivity|]); (split; [reflexivity|]);
    intros Hne; try reflexivity;
    apply key_eqb_true in E1; apply key_eqb_true in E2; subst;
    rewrite key_eqb_refl in Hne; discriminate.
Qed.

Lemma gk_run_cons (s : gk) (ev : kevent) (evs : list kevent) :
  fst (gk_run s (ev :: evs)) = fst (gk_run (fst (gk_handle s ev)) evs).
Proof.
  cbn [gk_run]. destruct (gk_handle s ev) as [s1 cs1]. cbn [fst].
  destruct (gk_run s1 evs). reflexivity.
Qed.

(** After any sequence of key events, the chord listener's flag for its
    first key is [true] exactly when the last event on that key was a press
    (its earlier value if there was none); the same holds for the second key
    when the two keys differ. *)
Theorem chord_flags_track_keys (evs : list kevent) : forall s : gk,
  key1_pressed (fst (gk_run s evs)) = last_held (key1 s) (key1_pressed s) evs /\
  (key_eqb (key1 s) (key2 s) = false ->
   key2_pressed (fst (gk_run s evs)) = last_held (key2 s) (key2_pressed s) evs).
Proof.
  induction evs as [|ev evs IH]; intros s.
  { split; [reflexivity | intros _; reflexivity]. }
  rewrite gk_run_cons.
  destruct (gk_handle_flags s ev) as [Hk1 [Hk2 [Hp1 Hp2]]].
  destruct (IH (fst (gk_handle s ev))) as [I1 I2].
  rewrite Hk1, Hp1 in I1. rewrite Hk1, Hk2 in I2.
  split.
  - rewrite I1. destruct ev; reflexivity.
  - intros Hne. rewrite (I2 Hne), (Hp2 Hne). destruct ev; reflexivity.
Qed.

Lemma chord_flags_track_keys_witness :
  key2_pressed (fst (gk_run (gk_init (Special "ctrl") (Special "alt"))
                      [Press (Special "alt") 0; Release (Special "alt")]))
  = last_held (Special "alt") false [Press (Special "alt") 0; Release (Special "alt")].
Proof.
  apply (proj2 (chord_flags_track_keys [Press (Special "alt") 0; Release (Special "alt")]
                  (gk_init (Special "ctrl") (Special "alt")))).
  reflexivity.
Defined.

Lemma alt_end_app (a : bool) (xs ys : list call) :
  alt_end a (xs ++ ys) = match alt_end a xs with Some b => alt_end b ys | None => None end.
Proof.
  revert a; induction xs as [|c xs IH]; intros a; [reflexivity|].
  destruct c, a; cbn; auto.
Qed.

Lemma ptt_handle_alt (s : ptt) (ev : kevent) :
  alt_end (active s) (snd (ptt_handle s ev)) = Some (active (fst (ptt_handle s ev))).
Proof.
  destruct s as [a l]; destruct ev as [k t | k];
    unfold ptt_handle, ptt_on_key_press, ptt_on_key_release; cbn;
    destruct (key_eqb k cmd_l); cbn; destruct a; cbn; try reflexivity.
  destruct (quick t l); reflexivity.
Qed.

(** Over any event sequence the push-to-talk listener's calls alternate
    [start()] and [stop()] (beginning with [start()] when it is inactive),
    it never calls [toggle()], and it ends active exactly when its last call
    was [start()] (or as it began, if it made no call). *)
Theorem ptt_calls_alternate (evs : list kevent) : forall s : ptt,
  alt_end (active s) (snd (ptt_run s evs)) = Some (active (fst (ptt_run s evs))).
Proof.
  induction evs as [|ev evs IH]; intros s; [reflexivity|].
  cbn [ptt_run]. pose proof (ptt_handle_alt s ev) as H.
  destruct (ptt_handle s ev) as [s1 cs1]. cbn in H.
  specialize (IH s1). destruct (ptt_run s1 evs) as [s2 cs2]. cbn in *.
  rewrite alt_end_app, H. exact IH.
Qed.

End Extra.
